(** * NestJS-Fundamentals, Chapter 2: the songs service and its controller

    A shallow embedding of [songs/songs.service.ts] and of the songs
    controller.  Both files are a few lines of TypeScript, but what the
    specification says about them is mostly about *object identity*: which
    array a method hands out, and whether writing to that array is visible
    through the service afterwards.  The embedding therefore keeps the
    JavaScript heap explicit: arrays and objects live in cells, values of
    array and object type are references to cells, and every method is a
    heap transformer that may complete normally or throw. *)

From Stdlib Require Import ZArith.
From stdpp Require Import base option list strings gmap fin_sets.

Local Open Scope string_scope.
Local Open Scope list_scope.

(** ** The heap *)

(** A reference to a heap cell. *)
Abbreviation loc := positive.

(** Values an object property typed [any] may hold.  The code never
    computes with them; numbers are kept as integers. *)
Inductive JsVal : Type :=
  | JUndefined
  | JNull
  | JBool (b : bool)
  | JNum (n : Z)
  | JStr (s : string)
  | JRef (l : loc).

(** [interface Song { title: string; artist: string; [key: string]: any }] *)
Record Song : Type := mkSong {
  title : string;
  artist : string;
  extra : gmap string JsVal
}.

(** A heap cell is an array of song references ([Song[]]) or a song object. *)
Inductive Cell : Type :=
  | CArr (elems : list loc)
  | CObj (o : Song).

Abbreviation Heap := (gmap loc Cell).

Inductive JsError : Type :=
  | TypeError.

(** How a call ends: normally, with a value and the heap it leaves, or by
    throwing. *)
Inductive Completion (A : Type) : Type :=
  | Normal (a : A) (h : Heap)
  | Throw (e : JsError).

Arguments Normal {A} a h.
Arguments Throw {A} e.

Definition JS (A : Type) : Type := Heap -> Completion A.

Global Instance JS_ret : MRet JS := fun A (a : A) h => Normal a h.

Global Instance JS_bind : MBind JS := fun A B (k : A -> JS B) (m : JS A) h =>
  match m h with
  | Normal a h' => k a h'
  | Throw e => Throw e
  end.

Global Instance JS_fmap : FMap JS := fun A B (f : A -> B) (m : JS A) h =>
  match m h with
  | Normal a h' => Normal (f a) h'
  | Throw e => Throw e
  end.

(** The heap a normal completion leaves. *)
Definition heap_of {A} (c : Completion A) : option Heap :=
  match c with Normal _ h => Some h | Throw _ => None end.

(** Allocation picks a reference no cell of the heap uses. *)
Definition alloc (c : Cell) : JS loc :=
  fun h => let l := fresh (dom h) in Normal l (<[l := c]> h).

(** Reading the elements of an array; anything else is not iterable. *)
Definition array_elems (a : loc) : JS (list loc) :=
  fun h =>
    match h !! a with
    | Some (CArr xs) => Normal xs h
    | _ => Throw TypeError
    end.

(** In-place update of the array at [a]: every mutating array method
    ([push], [pop], [shift], [splice], [reverse], an index assignment,
    an assignment to [length], ...) is [array_update a f] for some [f]. *)
Definition array_update (a : loc) (f : list loc -> list loc) : JS unit :=
  fun h =>
    match h !! a with
    | Some (CArr xs) => Normal tt (<[a := CArr (f xs)]> h)
    | _ => Throw TypeError
    end.

(** [a.push(v)]: appends in place and returns the new length.  Arrays are
    unbounded lists here; the engine's bound on an array's length
    (2^32 - 1 elements) is beyond what the process can hold. *)
Definition array_push (a : loc) (v : loc) : JS nat :=
  fun h =>
    match h !! a with
    | Some (CArr xs) =>
        Normal (length (xs ++ [v])) (<[a := CArr (xs ++ [v])]> h)
    | _ => Throw TypeError
    end.

(** [a.pop()]: removes the last element in place. *)
Definition array_pop (a : loc) : JS (option loc) :=
  fun h =>
    match h !! a with
    | Some (CArr xs) => Normal (last xs) (<[a := CArr (removelast xs)]> h)
    | _ => Throw TypeError
    end.

(** [[...a]]: a new array holding the elements of [a]. *)
Definition array_spread (a : loc) : JS loc :=
  xs ← array_elems a; alloc (CArr xs).

(** ** songs.service.ts *)

Module SongsService.

(** [private readonly songs: Song[]]: the field holds a reference, and
    nothing ever reassigns it. *)
Record t : Type := mk {
  songs : loc
}.

(** [new SongsService()] runs the field initialiser [songs = []]. *)
Definition new : JS t :=
  a ← alloc (CArr []); mret (mk a).

(** [create(song) { this.songs.push(song); return this.songs; }] *)
Definition create (this : t) (song : loc) : JS loc :=
  array_push (songs this) song;;
  mret (songs this).

(** [findAll() { return [...this.songs]; }] *)
Definition findAll (this : t) : JS loc :=
  array_spread (songs this).

End SongsService.

(** ** The songs controller *)

Module SongsController.

(** [constructor(private songsService: SongsService) {}] *)
Record t : Type := mk {
  songsService : SongsService.t
}.

(** [@Get() findAll() { return this.songsService.findAll(); }] *)
Definition findAll (this : t) : JS loc :=
  SongsService.findAll (songsService this).

(** [@Get(':id') findASong() { return 'Song Received!!'; }] *)
Definition findASong (this : t) : JS string :=
  mret "Song Received!!".

(** [@Post() addASong() { return this.songsService.create({ title:
    'Ulazi ', artist: 'Amaroto ' }); }]: the object literal is evaluated
    first, which allocates the record, then [create] is called on it. *)
Definition addASong (this : t) : JS loc :=
  song ← alloc (CObj (mkSong "Ulazi " "Amaroto " ∅));
  SongsService.create (songsService this) song.

(** [@Put(':id') changeASong() { return 'Song updated succesfully!!'; }] *)
Definition changeASong (this : t) : JS string :=
  mret "Song updated succesfully!!".

(** [@Delete(':id') removeASong() { return 'Song removed succesfully!!'; }] *)
Definition removeASong (this : t) : JS string :=
  mret "Song removed succesfully!!".

End SongsController.

(** ** The route table the decorators declare *)

Inductive Method : Type := GET | POST | PUT | DELETE.

Global Instance Method_eq_dec : EqDecision Method.
Proof. solve_decision. Defined.

(** A request: its method, the segments of its path ([/songs/42] is
    [["songs"; "42"]]) and its body. *)
Record Request : Type := mkRequest {
  method : Method;
  path : list string;
  body : string
}.

(** What a handler hands back to the framework to serialise; [NotFound]
    is the framework's own answer when no route matches. *)
Inductive Response : Type :=
  | SongList (arr : loc)
  | Text (s : string)
  | NotFound.

Inductive Segment : Type :=
  | Lit (s : string)
  | Param (name : string).

Record Route : Type := mkRoute {
  verb : Method;
  pattern : list Segment;
  handler : SongsController.t -> JS Response
}.

(** [@Controller('songs')] prefixes every pattern; the handlers are listed
    in the order of the class body.  No handler declares a parameter, so
    none of them is given the [:id] segment or the body. *)
Definition routes : list Route :=
  [ mkRoute GET [Lit "songs"]
      (fun c => SongList <$> SongsController.findAll c);
    mkRoute GET [Lit "songs"; Param "id"]
      (fun c => Text <$> SongsController.findASong c);
    mkRoute POST [Lit "songs"]
      (fun c => SongList <$> SongsController.addASong c);
    mkRoute PUT [Lit "songs"; Param "id"]
      (fun c => Text <$> SongsController.changeASong c);
    mkRoute DELETE [Lit "songs"; Param "id"]
      (fun c => Text <$> SongsController.removeASong c) ].

(** A literal segment matches itself, a parameter any non-empty segment. *)
Definition segment_matches (p : Segment) (s : string) : bool :=
  match p with
  | Lit l => bool_decide (l = s)
  | Param _ => bool_decide (s ≠ "")
  end.

Fixpoint path_matches (pat : list Segment) (p : list string) : bool :=
  match pat, p with
  | [], [] => true
  | x :: pat', s :: p' => segment_matches x s && path_matches pat' p'
  | _, _ => false
  end.

Definition route_matches (req : Request) (r : Route) : bool :=
  bool_decide (verb r = method req) && path_matches (pattern r) (path req).

(** The first matching route handles the request. *)
Definition dispatch (ctl : SongsController.t) (req : Request) : JS Response :=
  match List.find (route_matches req) routes with
  | Some r => handler r ctl
  | None => mret NotFound
  end.

(** ** Observations *)

(** The collection the service holds: the elements of the array its
    [songs] field refers to. *)
Definition stored (this : SongsService.t) (h : Heap) : option (list loc) :=
  match h !! SongsService.songs this with
  | Some (CArr xs) => Some xs
  | _ => None
  end.

(** The record a song reference points at. *)
Definition deref_song (h : Heap) (l : loc) : option Song :=
  match h !! l with
  | Some (CObj o) => Some o
  | _ => None
  end.

(** The records an array holds, in order: what a caller reading the array
    (or the framework serialising it) sees. *)
Definition songs_at (h : Heap) (a : loc) : option (list Song) :=
  match h !! a with
  | Some (CArr xs) => mapM (deref_song h) xs
  | _ => None
  end.

(** The record [{ title: 'Ulazi ', artist: 'Amaroto ' }]. *)
Definition ulazi : Song := mkSong "Ulazi " "Amaroto " ∅.

(** A run of [create] calls, one per song, in order. *)
Fixpoint create_each (this : SongsService.t) (ss : list loc) : JS unit :=
  match ss with
  | [] => mret tt
  | s :: ss' => SongsService.create this s;; create_each this ss'
  end.

(** One call on the public surface: a method of the service or a handler
    of the controller. *)
Inductive Call : Type :=
  | ServiceCreate (song : loc)
  | ServiceFindAll
  | HandlerFindAll
  | HandlerFindASong
  | HandlerAddASong
  | HandlerChangeASong
  | HandlerRemoveASong.

(** The calls that reach [SongsService.create]. *)
Definition creates (c : Call) : bool :=
  match c with
  | ServiceCreate _ | HandlerAddASong => true
  | _ => false
  end.

Definition call (ctl : SongsController.t) (c : Call) : JS Response :=
  match c with
  | ServiceCreate song =>
      SongList <$> SongsService.create (SongsController.songsService ctl) song
  | ServiceFindAll =>
      SongList <$> SongsService.findAll (SongsController.songsService ctl)
  | HandlerFindAll => SongList <$> SongsController.findAll ctl
  | HandlerFindASong => Text <$> SongsController.findASong ctl
  | HandlerAddASong => SongList <$> SongsController.addASong ctl
  | HandlerChangeASong => Text <$> SongsController.changeASong ctl
  | HandlerRemoveASong => Text <$> SongsController.removeASong ctl
  end.

(** [o.title = v], [o.artist = v], [o[k] = v]: in-place update of the
    record at [o]. *)
Definition song_update (o : loc) (f : Song -> Song) : JS unit :=
  fun h =>
    match h !! o with
    | Some (CObj s) => Normal tt (<[o := CObj (f s)]> h)
    | _ => Throw TypeError
    end.





(** ** The controller as Chapter 1 leaves it: every handler a stub *)

Module Chapter1.

Module SongsController.

(** The class has no constructor and no field. *)
Inductive t : Type := mk.

(** [@Get() findAll() { return 'Find All Songs!!'; }] *)
Definition findAll (this : t) : JS string :=
  mret "Find All Songs!!".

(** [@Get(':id') findASong() { return 'Song Received!!'; }] *)
Definition findASong (this : t) : JS string :=
  mret "Song Received!!".

(** [@Post() addASong() { return 'Song added succesfully!!'; }] *)
Definition addASong (this : t) : JS string :=
  mret "Song added succesfully!!".

(** [@Put(':id') changeASong() { return 'Song updated succesfully!!'; }] *)
Definition changeASong (this : t) : JS string :=
  mret "Song updated succesfully!!".

(** [@Delete(':id') removeASong() { return 'Song removed succesfully!!'; }] *)
Definition removeASong (this : t) : JS string :=
  mret "Song removed succesfully!!".

End SongsController.

(** The same decorators as in Chapter 2, on these handlers. *)
Definition routes
  : list (Method * list Segment * (SongsController.t -> JS Response)) :=
  [ (GET, [Lit "songs"], fun c => Text <$> SongsController.findAll c);
    (GET, [Lit "songs"; Param "id"],
      fun c => Text <$> SongsController.findASong c);
    (POST, [Lit "songs"], fun c => Text <$> SongsController.addASong c);
    (PUT, [Lit "songs"; Param "id"],
      fun c => Text <$> SongsController.changeASong c);
    (DELETE, [Lit "songs"; Param "id"],
      fun c => Text <$> SongsController.removeASong c) ].

Definition dispatch (ctl : SongsController.t) (req : Request) : JS Response :=
  match
    List.find
      (fun r => bool_decide (r.1.1 = method req)
                && path_matches r.1.2 (path req))
      routes
  with
  | Some r => r.2 ctl
  | None => mret NotFound
  end.

End Chapter1.

(** [song.title = 'Renamed']. *)
Definition rename (s : Song) : Song := mkSong "Renamed" (artist s) (extra s).


(** A store holding one song, and an empty one, for concrete runs. *)
Definition sample_service : SongsService.t := SongsService.mk 1.

Definition sample_controller : SongsController.t :=
  SongsController.mk sample_service.

Definition empty_store : Heap := {[ 1%positive := CArr [] ]}.

Definition one_song_store : Heap :=
  {[ 1%positive := CArr [2%positive]; 2%positive := CObj ulazi ]}.

(** A record with an empty title, an empty artist and extra fields. *)
Definition odd_song : Song :=
  mkSong "" "" {[ "year" := JNum 1999; "live" := JBool true ]}.

Definition odd_song_store : Heap :=
  {[ 1%positive := CArr [2%positive]; 2%positive := CObj ulazi;
     3%positive := CObj odd_song ]}.

(** ** Equations of the primitives *)

Section Primitives.

Context {A B : Type}.

Lemma bind_normal (m : JS A) (k : A -> JS B) h a h' :
  m h = Normal a h' -> (m ≫= k) h = k a h'.
Proof. intros E. unfold mbind, JS_bind. by rewrite E. Qed.

Lemma fmap_normal (f : A -> B) (m : JS A) h a h' :
  m h = Normal a h' -> (f <$> m) h = Normal (f a) h'.
Proof. intros E. unfold fmap, JS_fmap. by rewrite E. Qed.

End Primitives.

Lemma fresh_unused (h : Heap) : h !! fresh (dom h) = None.
Proof. apply not_elem_of_dom, is_fresh. Qed.

Lemma alloc_eq (c : Cell) (h : Heap) :
  alloc c h = Normal (fresh (dom h)) (<[fresh (dom h) := c]> h).
Proof. reflexivity. Qed.

Lemma stored_lookup this (h : Heap) xs :
  stored this h = Some xs <-> h !! SongsService.songs this = Some (CArr xs).
Proof.
  unfold stored. destruct (h !! SongsService.songs this) as [[ys|o]|]; split;
    intros E; by simplify_eq.
Qed.

(** Writing a cell other than the service's array leaves the collection. *)
Lemma stored_insert_ne this (h : Heap) l c :
  l ≠ SongsService.songs this -> stored this (<[l := c]> h) = stored this h.
Proof. intros Hne. unfold stored. by rewrite lookup_insert_ne. Qed.

Lemma stored_insert_eq this (h : Heap) xs :
  stored this (<[SongsService.songs this := CArr xs]> h) = Some xs.
Proof. unfold stored. by rewrite lookup_insert_eq. Qed.

(** A reference that is fresh for the heap is not the service's array. *)
Lemma fresh_not_stored this (h : Heap) xs :
  stored this h = Some xs -> fresh (dom h) ≠ SongsService.songs this.
Proof.
  intros E%stored_lookup Heq. pose proof (fresh_unused h) as Hf.
  rewrite Heq in Hf. congruence.
Qed.

(** Writing an array into a cell that held no record changes no record. *)
Lemma deref_song_insert_array (h : Heap) a xs l :
  deref_song h a = None ->
  deref_song (<[a := CArr xs]> h) l = deref_song h l.
Proof.
  intros Ha. unfold deref_song in *.
  destruct (decide (a = l)) as [->|Hne].
  - rewrite lookup_insert_eq. by destruct (h !! l) as [[?|?]|].
  - by rewrite lookup_insert_ne.
Qed.

Lemma deref_song_array (h : Heap) a xs :
  h !! a = Some (CArr xs) -> deref_song h a = None.
Proof. intros E. unfold deref_song. by rewrite E. Qed.

Lemma deref_song_unused (h : Heap) a : h !! a = None -> deref_song h a = None.
Proof. intros E. unfold deref_song. by rewrite E. Qed.

Lemma songs_at_array (h : Heap) a xs :
  h !! a = Some (CArr xs) -> songs_at h a = mapM (deref_song h) xs.
Proof. intros E. unfold songs_at. by rewrite E. Qed.

(** [push] and [pop] are in-place updates: what they do to the heap is what
    [array_update] does with appending, or with dropping the last element. *)
Lemma array_push_is_update a v (h : Heap) :
  heap_of (array_push a v h) = heap_of (array_update a (fun xs => xs ++ [v]) h).
Proof. unfold array_push, array_update. by destruct (h !! a) as [[?|?]|]. Qed.

Lemma array_pop_is_update a (h : Heap) :
  heap_of (array_pop a h)
  = heap_of (array_update a (fun xs => removelast xs) h).
Proof. unfold array_pop, array_update. by destruct (h !! a) as [[?|?]|]. Qed.

(** ** Equations of the service *)

Lemma create_eq this (h : Heap) xs song :
  stored this h = Some xs ->
  SongsService.create this song h
  = Normal (SongsService.songs this)
           (<[SongsService.songs this := CArr (xs ++ [song])]> h).
Proof.
  intros E%stored_lookup. unfold SongsService.create.
  erewrite bind_normal; [reflexivity|].
  unfold array_push. by rewrite E.
Qed.

Lemma findAll_eq this (h : Heap) xs :
  stored this h = Some xs ->
  SongsService.findAll this h
  = Normal (fresh (dom h)) (<[fresh (dom h) := CArr xs]> h).
Proof.
  intros E%stored_lookup. unfold SongsService.findAll, array_spread.
  erewrite bind_normal; [apply alloc_eq|].
  unfold array_elems. by rewrite E.
Qed.

Lemma new_eq (h : Heap) :
  SongsService.new h
  = Normal (SongsService.mk (fresh (dom h))) (<[fresh (dom h) := CArr []]> h).
Proof. reflexivity. Qed.

Lemma create_each_eq this ss : forall (h : Heap) xs,
  stored this h = Some xs ->
  create_each this ss h
  = Normal tt (<[SongsService.songs this := CArr (xs ++ ss)]> h).
Proof.
  induction ss as [|s ss IH]; intros h xs E; simpl.
  - rewrite app_nil_r. unfold mret, JS_ret.
    f_equal. symmetry. apply insert_id. by apply stored_lookup.
  - erewrite bind_normal; [|by apply create_eq].
    erewrite IH; [|apply stored_insert_eq].
    by rewrite insert_insert_eq, <- app_assoc.
Qed.

(** The constructor leaves a store whose collection is empty, and nothing
    a caller can do to the heap (allocating, updating an array in place,
    the service's own included) takes the service's array away: every heap
    a program reaches is a store state. *)
Lemma new_stored (h : Heap) :
  exists svc h', SongsService.new h = Normal svc h' /\ stored svc h' = Some [].
Proof.
  eexists _, _. split; [apply new_eq|].
  apply (stored_insert_eq (SongsService.mk _)).
Qed.

Lemma alloc_keeps_store this (h : Heap) xs c :
  stored this h = Some xs ->
  exists l h', alloc c h = Normal l h' /\ stored this h' = Some xs.
Proof.
  intros E. eexists _, _. split; [apply alloc_eq|].
  rewrite stored_insert_ne; [done|]. by eapply fresh_not_stored.
Qed.

Lemma array_update_keeps_store this (h h' : Heap) a f :
  array_update a f h = Normal tt h' ->
  is_Some (stored this h) -> is_Some (stored this h').
Proof.
  unfold array_update. intros U [xs E].
  destruct (h !! a) as [[ys|?]|] eqn:L; simplify_eq.
  destruct (decide (a = SongsService.songs this)) as [->|Hne].
  - rewrite stored_insert_eq. by eexists.
  - rewrite stored_insert_ne by done. by eexists.
Qed.

(** ** The service on its own *)

(** C6. [findAll()] on a fresh store, one that [new SongsService()] has
    just built and on which [create] was never called, returns an empty
    sequence, whatever else the heap already holds. *)
Theorem findAll_fresh_store_empty (h0 : Heap) :
  exists svc h1 r h2,
    SongsService.new h0 = Normal svc h1
    /\ SongsService.findAll svc h1 = Normal r h2
    /\ h2 !! r = Some (CArr [])
    /\ songs_at h2 r = Some [].
Proof.
  eexists _, _, _, _. rewrite new_eq. split; [reflexivity|].
  rewrite (findAll_eq _ _ []) by apply stored_insert_eq.
  split; [reflexivity|].
  assert (<[fresh (dom (<[fresh (dom h0) := CArr []]> h0)) := CArr []]>
            (<[fresh (dom h0) := CArr []]> h0)
          !! fresh (dom (<[fresh (dom h0) := CArr []]> h0))
          = Some (CArr [])) as E by apply lookup_insert_eq.
  split; [exact E|]. by rewrite (songs_at_array _ _ _ E).
Qed.

(** C2. Insertion order is preserved.  One [create(song)] appends [song]
    at the end of the stored collection; and on a fresh store, after a
    [create] for each song of [ss] in turn, [findAll()] returns an array
    holding exactly the references [ss], in that order, so a caller reading
    it sees exactly the records of [ss], in that order. *)
Theorem create_preserves_insertion_order :
  (forall this (h : Heap) xs song,
      stored this h = Some xs ->
      exists h',
        SongsService.create this song h = Normal (SongsService.songs this) h'
        /\ stored this h' = Some (xs ++ [song]))
  /\ (forall (h0 : Heap) (ss : list loc),
         exists svc h1 h2 r h3,
           SongsService.new h0 = Normal svc h1
           /\ create_each svc ss h1 = Normal tt h2
           /\ SongsService.findAll svc h2 = Normal r h3
           /\ h3 !! r = Some (CArr ss)
           /\ songs_at h3 r = mapM (deref_song h0) ss).
Proof.
  split.
  - intros this h xs song E. eexists. split; [by apply create_eq|].
    apply stored_insert_eq.
  - intros h0 ss.
    set (svc := SongsService.mk (fresh (dom h0))).
    set (h1 := <[fresh (dom h0) := CArr []]> h0).
    set (h2 := <[fresh (dom h0) := CArr ss]> h0).
    assert (stored svc h2 = Some ss) as E2 by apply (stored_insert_eq svc).
    exists svc, h1, h2, (fresh (dom h2)), (<[fresh (dom h2) := CArr ss]> h2).
    split; [apply new_eq|]. split.
    { rewrite (create_each_eq svc ss h1 []) by apply (stored_insert_eq svc).
      unfold h1, h2. simpl. by rewrite insert_insert_eq. }
    split; [by apply findAll_eq|].
    assert (<[fresh (dom h2) := CArr ss]> h2 !! fresh (dom h2)
            = Some (CArr ss)) as E by apply lookup_insert_eq.
    split; [exact E|]. rewrite (songs_at_array _ _ _ E).
    apply mapM_ext. intros l.
    rewrite deref_song_insert_array
      by apply deref_song_unused, fresh_unused.
    apply deref_song_insert_array, deref_song_unused, fresh_unused.
Qed.

(** C8. [create] never throws.  On every store state and for every song
    reference, whatever record it points at (any title and artist, empty
    ones included, any extra fields), [create] completes normally, the
    collection has the reference appended, and no other cell of the heap,
    the record itself included, is touched: nothing is validated and
    nothing is rejected. *)
Theorem create_never_throws this (h : Heap) xs song :
  stored this h = Some xs ->
  exists h',
    SongsService.create this song h = Normal (SongsService.songs this) h'
    /\ stored this h' = Some (xs ++ [song])
    /\ (forall l, l ≠ SongsService.songs this -> h' !! l = h !! l)
    /\ (forall o, deref_song h song = Some o -> deref_song h' song = Some o).
Proof.
  intros E. eexists. split; [by apply create_eq|].
  split; [apply stored_insert_eq|]. split.
  - intros l Hne. by rewrite lookup_insert_ne.
  - intros o Ho. rewrite deref_song_insert_array; [done|].
    apply (deref_song_array _ _ xs). by apply stored_lookup.
Qed.

(** C9. [findAll()] is a pure read.  It leaves every cell that existed
    before the call as it was, the stored collection in particular, and a
    second [findAll()] right after the first returns an array with the same
    elements. *)
Theorem findAll_pure_read this (h : Heap) xs :
  stored this h = Some xs ->
  exists r1 h1 r2 h2,
    SongsService.findAll this h = Normal r1 h1
    /\ SongsService.findAll this h1 = Normal r2 h2
    /\ h !! r1 = None
    /\ (forall l, l ≠ r1 -> h1 !! l = h !! l)
    /\ stored this h1 = Some xs
    /\ stored this h2 = Some xs
    /\ h1 !! r1 = Some (CArr xs)
    /\ h2 !! r2 = Some (CArr xs)
    /\ songs_at h1 r1 = songs_at h2 r2.
Proof.
  intros E.
  set (r1 := fresh (dom h)). set (h1 := <[r1 := CArr xs]> h).
  set (r2 := fresh (dom h1)). set (h2 := <[r2 := CArr xs]> h1).
  assert (stored this h1 = Some xs) as E1.
  { unfold h1. rewrite stored_insert_ne; [done|]. by eapply fresh_not_stored. }
  assert (stored this h2 = Some xs) as E2.
  { unfold h2. rewrite stored_insert_ne; [done|]. by eapply fresh_not_stored. }
  assert (h1 !! r1 = Some (CArr xs)) as L1 by apply lookup_insert_eq.
  assert (h2 !! r2 = Some (CArr xs)) as L2 by apply lookup_insert_eq.
  exists r1, h1, r2, h2.
  split; [by apply findAll_eq|]. split; [by apply findAll_eq|].
  split; [apply fresh_unused|]. split.
  { intros l Hne. unfold h1. by rewrite lookup_insert_ne. }
  do 4 (split; [done|]).
  rewrite (songs_at_array _ _ _ L1), (songs_at_array _ _ _ L2).
  apply mapM_ext. intros l. symmetry.
  apply deref_song_insert_array, deref_song_unused, fresh_unused.
Qed.

(** [findAll()] hands out a new array: a reference no cell used before the
    call, so in particular not the service's own array. *)
Lemma findAll_returns_new_array this (h : Heap) xs :
  stored this h = Some xs ->
  exists r h1,
    SongsService.findAll this h = Normal r h1
    /\ h !! r = None
    /\ r ≠ SongsService.songs this
    /\ h1 = <[r := CArr xs]> h.
Proof.
  intros E. exists (fresh (dom h)), (<[fresh (dom h) := CArr xs]> h).
  split; [by apply findAll_eq|]. split; [apply fresh_unused|].
  split; [by eapply fresh_not_stored|done].
Qed.

(** C5. [findAll()] copies out.  The array it returns is not the one the
    service holds, and whatever the caller then does to the returned array
    (any in-place update [f] of its elements), the stored collection stays
    as it was and the next [findAll()] returns the same elements, hence the
    same records, as if nothing had been done. *)
Theorem findAll_copy_out this (h : Heap) xs :
  stored this h = Some xs ->
  exists r h1,
    SongsService.findAll this h = Normal r h1
    /\ r ≠ SongsService.songs this
    /\ h1 !! r = Some (CArr xs)
    /\ forall f : list loc -> list loc,
         exists h2,
           array_update r f h1 = Normal tt h2
           /\ stored this h2 = Some xs
           /\ exists r' h3,
                SongsService.findAll this h2 = Normal r' h3
                /\ h3 !! r' = Some (CArr xs)
                /\ songs_at h3 r' = songs_at h (SongsService.songs this).
Proof.
  intros E.
  destruct (findAll_returns_new_array this h xs E)
    as (r & h1 & F & U & Hne & ->).
  exists r, (<[r := CArr xs]> h). split; [done|]. split; [done|].
  split; [apply lookup_insert_eq|]. intros f.
  set (h2 := <[r := CArr (f xs)]> h).
  assert (stored this h2 = Some xs) as E2.
  { unfold h2. by rewrite stored_insert_ne. }
  exists h2. split.
  { unfold array_update. rewrite lookup_insert_eq. unfold h2.
    by rewrite insert_insert_eq. }
  split; [done|].
  exists (fresh (dom h2)), (<[fresh (dom h2) := CArr xs]> h2).
  split; [by apply findAll_eq|].
  assert (<[fresh (dom h2) := CArr xs]> h2 !! fresh (dom h2)
          = Some (CArr xs)) as L by apply lookup_insert_eq.
  split; [exact L|].
  rewrite (songs_at_array _ _ _ L).
  rewrite (songs_at_array h _ xs) by by apply stored_lookup.
  apply mapM_ext. intros l.
  rewrite deref_song_insert_array by apply deref_song_unused, fresh_unused.
  unfold h2. by apply deref_song_insert_array, deref_song_unused.
Qed.

(** [create] hands out the service's own array: an in-place update [f]
    made through the returned reference is an update of the stored
    collection. *)
Lemma create_returns_own_array this (h : Heap) xs song f :
  stored this h = Some xs ->
  exists r h1 h2,
    SongsService.create this song h = Normal r h1
    /\ r = SongsService.songs this
    /\ array_update r f h1 = Normal tt h2
    /\ stored this h2 = Some (f (xs ++ [song])).
Proof.
  intros E. eexists _, _, _. split; [by apply create_eq|].
  split; [done|]. split.
  - unfold array_update. by rewrite lookup_insert_eq.
  - apply stored_insert_eq.
Qed.

(** C1, on the code.  On a fresh store, [const r = svc.create(song);
    r.pop(); svc.findAll()]: the reference [r] that [create] returns is the
    service's own [songs] array, so the caller's [pop] removes the song
    from the store and the [findAll()] that follows returns an empty array,
    where a snapshot would have left it holding [song]. *)
Theorem create_result_is_live_reference :
  exists svc song r h1 h2 r' h3,
    (svc ← SongsService.new; song ← alloc (CObj ulazi);
     r ← SongsService.create svc song; mret (svc, song, r)) ∅
    = Normal (svc, song, r) h1
    /\ r = SongsService.songs svc
    /\ stored svc h1 = Some [song]
    /\ array_pop r h1 = Normal (Some song) h2
    /\ stored svc h2 = Some []
    /\ SongsService.findAll svc h2 = Normal r' h3
    /\ songs_at h3 r' = Some [].
Proof.
  eexists _, _, _, _, _, _, _.
  split; [vm_compute; reflexivity|]. split; [reflexivity|].
  split; [vm_compute; reflexivity|]. split; [vm_compute; reflexivity|].
  split; [vm_compute; reflexivity|]. split; vm_compute; reflexivity.
Qed.

(** ** The controller *)

Lemma addASong_eq ctl (h : Heap) xs :
  stored (SongsController.songsService ctl) h = Some xs ->
  SongsController.addASong ctl h
  = Normal (SongsService.songs (SongsController.songsService ctl))
      (<[SongsService.songs (SongsController.songsService ctl)
           := CArr (xs ++ [fresh (dom h)])]>
         (<[fresh (dom h) := CObj ulazi]> h)).
Proof.
  intros E. unfold SongsController.addASong.
  erewrite bind_normal; [|apply alloc_eq].
  apply create_eq. rewrite stored_insert_ne; [done|].
  by eapply fresh_not_stored.
Qed.

Section Dispatch.

Variable ctl : SongsController.t.
Variable body : string.

Lemma dispatch_get :
  dispatch ctl (mkRequest GET ["songs"] body)
  = SongList <$> SongsController.findAll ctl.
Proof. reflexivity. Qed.

Lemma dispatch_post :
  dispatch ctl (mkRequest POST ["songs"] body)
  = SongList <$> SongsController.addASong ctl.
Proof. reflexivity. Qed.

Lemma dispatch_get_id id :
  id ≠ "" ->
  dispatch ctl (mkRequest GET ["songs"; id] body)
  = Text <$> SongsController.findASong ctl.
Proof.
  intros Hid. unfold dispatch, routes, List.find, route_matches. simpl.
  by rewrite bool_decide_eq_true_2.
Qed.

Lemma dispatch_put_id id :
  id ≠ "" ->
  dispatch ctl (mkRequest PUT ["songs"; id] body)
  = Text <$> SongsController.changeASong ctl.
Proof.
  intros Hid. unfold dispatch, routes, List.find, route_matches. simpl.
  by rewrite bool_decide_eq_true_2.
Qed.

Lemma dispatch_delete_id id :
  id ≠ "" ->
  dispatch ctl (mkRequest DELETE ["songs"; id] body)
  = Text <$> SongsController.removeASong ctl.
Proof.
  intros Hid. unfold dispatch, routes, List.find, route_matches. simpl.
  by rewrite bool_decide_eq_true_2.
Qed.

End Dispatch.

(** Whatever the request, [dispatch] answers [NotFound] or runs one of the
    five handlers. *)
Lemma dispatch_cases ctl req :
  dispatch ctl req = mret NotFound
  \/ exists c,
       c ∈ [HandlerFindAll; HandlerFindASong; HandlerAddASong;
            HandlerChangeASong; HandlerRemoveASong]
       /\ dispatch ctl req = call ctl c.
Proof.
  unfold dispatch.
  destruct (List.find (route_matches req) routes) as [r|] eqn:F; [|by left].
  right. apply List.find_some in F as [Hin _].
  unfold routes in Hin. simpl in Hin.
  destruct Hin as [<-|[<-|[<-|[<-|[<-|[]]]]]]; simpl.
  - exists HandlerFindAll. split; [set_solver|done].
  - exists HandlerFindASong. split; [set_solver|done].
  - exists HandlerAddASong. split; [set_solver|done].
  - exists HandlerChangeASong. split; [set_solver|done].
  - exists HandlerRemoveASong. split; [set_solver|done].
Qed.

(** A record that exists stays as it is when a cell that held no record
    is written. *)
Lemma deref_song_insert_other (h : Heap) a c l o :
  deref_song h a = None ->
  deref_song h l = Some o -> deref_song (<[a := c]> h) l = Some o.
Proof.
  intros Ha Hl. unfold deref_song in *.
  destruct (decide (a = l)) as [->|Hne].
  - rewrite Hl in Ha. discriminate.
  - by rewrite lookup_insert_ne.
Qed.

(** What each call on the public surface does to the stored collection
    and to the records: the calls that reach [create] append one
    reference, the others leave the collection; none writes a record that
    exists. *)
Lemma call_stored ctl c (h : Heap) xs :
  stored (SongsController.songsService ctl) h = Some xs ->
  exists resp h' ys,
    call ctl c h = Normal resp h'
    /\ stored (SongsController.songsService ctl) h' = Some (xs ++ ys)
    /\ length ys = (if creates c then 1 else 0)
    /\ forall l o, deref_song h l = Some o -> deref_song h' l = Some o.
Proof.
  intros E. set (svc := SongsController.songsService ctl) in *.
  assert (forall c, stored svc (<[fresh (dom h) := c]> h) = Some xs) as Ef.
  { intros c'. rewrite stored_insert_ne; [done|]. by eapply fresh_not_stored. }
  assert (deref_song h (fresh (dom h)) = None) as Df
    by apply deref_song_unused, fresh_unused.
  assert (forall h1, stored svc h1 = Some xs ->
                     deref_song h1 (SongsService.songs svc) = None) as Ds.
  { intros h1 E1. apply (deref_song_array _ _ xs). by apply stored_lookup. }
  destruct c as [song| | | | | |]; simpl.
  - eexists _, _, [song]. split; [by apply fmap_normal, create_eq|].
    split; [apply stored_insert_eq|]. split; [done|].
    intros l o. by apply deref_song_insert_other, Ds.
  - eexists _, _, []. rewrite app_nil_r.
    split; [by apply fmap_normal, findAll_eq|].
    split; [apply Ef|]. split; [done|].
    intros l o. by apply deref_song_insert_other.
  - eexists _, _, []. rewrite app_nil_r.
    split; [by apply fmap_normal, findAll_eq|].
    split; [apply Ef|]. split; [done|].
    intros l o. by apply deref_song_insert_other.
  - eexists _, h, []. rewrite app_nil_r. by repeat split.
  - eexists _, _, [fresh (dom h)].
    split; [by apply fmap_normal, addASong_eq|].
    split; [apply stored_insert_eq|]. split; [done|].
    intros l o Hl. apply deref_song_insert_other; [apply Ds, Ef|].
    by apply deref_song_insert_other.
  - eexists _, h, []. rewrite app_nil_r. by repeat split.
  - eexists _, h, []. rewrite app_nil_r. by repeat split.
Qed.

(** C3. On a store whose collection is empty, [GET /songs] answers the
    empty list.  [POST /songs], whatever its body, runs [addASong], which
    answers the updated list: the single hardcoded record; and the
    [GET /songs] after it answers the one-element list holding exactly
    that record. *)
Theorem get_songs_before_and_after_post ctl (h : Heap) body0 body1 body2 :
  stored (SongsController.songsService ctl) h = Some [] ->
  (exists r0 h0,
      dispatch ctl (mkRequest GET ["songs"] body0) h = Normal (SongList r0) h0
      /\ songs_at h0 r0 = Some [])
  /\ (exists r1 h1 r2 h2,
         dispatch ctl (mkRequest POST ["songs"] body1) h
         = Normal (SongList r1) h1
         /\ SongsController.addASong ctl h = Normal r1 h1
         /\ songs_at h1 r1 = Some [ulazi]
         /\ dispatch ctl (mkRequest GET ["songs"] body2) h1
            = Normal (SongList r2) h2
         /\ songs_at h2 r2 = Some [ulazi]).
Proof.
  intros E. set (svc := SongsController.songsService ctl) in *.
  set (a := SongsService.songs svc).
  split.
  - eexists _, _. rewrite dispatch_get. split.
    + apply fmap_normal. by apply findAll_eq.
    + unfold songs_at. by rewrite lookup_insert_eq.
  - set (s := fresh (dom h)).
    assert (s ≠ a) as Hsa by by eapply fresh_not_stored.
    set (h1 := <[a := CArr [s]]> (<[s := CObj ulazi]> h)).
    assert (SongsController.addASong ctl h = Normal a h1) as P
      by by rewrite (addASong_eq ctl h []).
    assert (stored svc h1 = Some [s]) as E1 by apply stored_insert_eq.
    assert (deref_song h1 s = Some ulazi) as D1.
    { unfold deref_song, h1.
      rewrite lookup_insert_ne by done. by rewrite lookup_insert_eq. }
    set (r2 := fresh (dom h1)).
    exists a, h1, r2, (<[r2 := CArr [s]]> h1).
    split; [rewrite dispatch_post; by apply fmap_normal|].
    split; [done|]. split.
    { rewrite (songs_at_array _ _ [s]) by by apply stored_lookup.
      simpl. by rewrite D1. }
    split; [rewrite dispatch_get; by apply fmap_normal, findAll_eq|].
    rewrite (songs_at_array _ _ [s]) by apply lookup_insert_eq.
    simpl.
    rewrite deref_song_insert_array by apply deref_song_unused, fresh_unused.
    by rewrite D1.
Qed.

(** C4. The three stub handlers return their literals on every heap,
    hence whatever the store holds; and since no handler is given the
    [:id] segment, [GET], [PUT] and [DELETE] on [/songs/{id}] answer those
    literals for every id, numeric or not, and every body. *)
Theorem stub_handlers_return_literals ctl (h : Heap) :
  SongsController.findASong ctl h = Normal "Song Received!!" h
  /\ SongsController.changeASong ctl h = Normal "Song updated succesfully!!" h
  /\ SongsController.removeASong ctl h = Normal "Song removed succesfully!!" h
  /\ forall id body,
       id ≠ "" ->
       dispatch ctl (mkRequest GET ["songs"; id] body) h
       = Normal (Text "Song Received!!") h
       /\ dispatch ctl (mkRequest PUT ["songs"; id] body) h
          = Normal (Text "Song updated succesfully!!") h
       /\ dispatch ctl (mkRequest DELETE ["songs"; id] body) h
          = Normal (Text "Song removed succesfully!!") h.
Proof.
  do 3 (split; [reflexivity|]). intros id body Hid.
  rewrite dispatch_get_id, dispatch_put_id, dispatch_delete_id by done.
  done.
Qed.

(** C7. Only [create] changes the stored collection.  The get-one, update
    and delete handlers complete on every heap and leave the whole heap as
    it was, so a [findAll()] after any of them is the [findAll()] that
    would have run without it; and among all calls on the public surface,
    those that do not reach [create] leave the stored collection as it
    was. *)
Theorem only_create_changes_store ctl :
  (forall h : Heap,
      heap_of (SongsController.findASong ctl h) = Some h
      /\ heap_of (SongsController.changeASong ctl h) = Some h
      /\ heap_of (SongsController.removeASong ctl h) = Some h)
  /\ (forall svc (h : Heap),
         (SongsController.findASong ctl;; SongsService.findAll svc) h
         = SongsService.findAll svc h
         /\ (SongsController.changeASong ctl;; SongsService.findAll svc) h
            = SongsService.findAll svc h
         /\ (SongsController.removeASong ctl;; SongsService.findAll svc) h
            = SongsService.findAll svc h)
  /\ (forall c (h : Heap) xs,
         stored (SongsController.songsService ctl) h = Some xs ->
         creates c = false ->
         exists resp h',
           call ctl c h = Normal resp h'
           /\ stored (SongsController.songsService ctl) h' = Some xs).
Proof.
  split; [done|]. split; [done|].
  intros c h xs E Hc.
  destruct (call_stored ctl c h xs E) as (resp & h' & ys & R & S & L & _).
  rewrite Hc in L. apply nil_length_inv in L as ->. rewrite app_nil_r in S.
  by exists resp, h'.
Qed.

(** C10. The store is append-only over the whole public surface: each
    method of the service and each handler of the controller, and so each
    request the route table serves, completes and leaves a stored
    collection of which the one it found is a prefix; and every record that
    existed before the call is the same record after it.  Nothing is
    removed, reordered or overwritten. *)
Theorem store_is_append_only ctl (h : Heap) xs :
  stored (SongsController.songsService ctl) h = Some xs ->
  (forall c,
      exists resp h' ys,
        call ctl c h = Normal resp h'
        /\ stored (SongsController.songsService ctl) h' = Some ys
        /\ xs `prefix_of` ys
        /\ forall l o, deref_song h l = Some o -> deref_song h' l = Some o)
  /\ (forall req,
         exists resp h' ys,
           dispatch ctl req h = Normal resp h'
           /\ stored (SongsController.songsService ctl) h' = Some ys
           /\ xs `prefix_of` ys
           /\ forall l o, deref_song h l = Some o -> deref_song h' l = Some o).
Proof.
  intros E.
  assert (forall c, exists resp h' ys,
             call ctl c h = Normal resp h'
             /\ stored (SongsController.songsService ctl) h' = Some ys
             /\ xs `prefix_of` ys
             /\ forall l o, deref_song h l = Some o ->
                            deref_song h' l = Some o) as Hcall.
  { intros c.
    destruct (call_stored ctl c h xs E) as (resp & h' & ys & R & S & _ & D).
    exists resp, h', (xs ++ ys). split; [done|]. split; [done|].
    split; [by apply prefix_app_r|done]. }
  split; [exact Hcall|]. intros req.
  destruct (dispatch_cases ctl req) as [->|(c & _ & ->)]; [|apply Hcall].
  by exists NotFound, h, xs.
Qed.

(** ** Concrete runs *)

Lemma create_preserves_insertion_order_run :
  stored sample_service odd_song_store = Some [2%positive]
  /\ exists h',
       SongsService.create sample_service 3%positive odd_song_store
       = Normal (SongsService.songs sample_service) h'
       /\ stored sample_service h' = Some ([2%positive] ++ [3%positive]).
Proof.
  split; [reflexivity|].
  apply (proj1 create_preserves_insertion_order
           sample_service odd_song_store [2%positive] 3%positive).
  reflexivity.
Defined.

Lemma create_never_throws_run :
  stored sample_service odd_song_store = Some [2%positive]
  /\ exists h',
       SongsService.create sample_service 3%positive odd_song_store
       = Normal (SongsService.songs sample_service) h'
       /\ stored sample_service h' = Some ([2%positive] ++ [3%positive])
       /\ (forall l, l ≠ SongsService.songs sample_service ->
                     h' !! l = odd_song_store !! l)
       /\ (forall o, deref_song odd_song_store 3%positive = Some o ->
                     deref_song h' 3%positive = Some o).
Proof.
  split; [reflexivity|].
  apply (create_never_throws sample_service odd_song_store
           [2%positive] 3%positive).
  reflexivity.
Defined.

Lemma findAll_pure_read_run :
  stored sample_service one_song_store = Some [2%positive]
  /\ exists r1 h1 r2 h2,
       SongsService.findAll sample_service one_song_store = Normal r1 h1
       /\ SongsService.findAll sample_service h1 = Normal r2 h2
       /\ one_song_store !! r1 = None
       /\ (forall l, l ≠ r1 -> h1 !! l = one_song_store !! l)
       /\ stored sample_service h1 = Some [2%positive]
       /\ stored sample_service h2 = Some [2%positive]
       /\ h1 !! r1 = Some (CArr [2%positive])
       /\ h2 !! r2 = Some (CArr [2%positive])
       /\ songs_at h1 r1 = songs_at h2 r2.
Proof.
  split; [reflexivity|].
  apply (findAll_pure_read sample_service one_song_store [2%positive]).
  reflexivity.
Defined.

Lemma findAll_copy_out_run :
  stored sample_service one_song_store = Some [2%positive]
  /\ exists r h1,
       SongsService.findAll sample_service one_song_store = Normal r h1
       /\ r ≠ SongsService.songs sample_service
       /\ h1 !! r = Some (CArr [2%positive])
       /\ forall f : list loc -> list loc,
            exists h2,
              array_update r f h1 = Normal tt h2
              /\ stored sample_service h2 = Some [2%positive]
              /\ exists r' h3,
                   SongsService.findAll sample_service h2 = Normal r' h3
                   /\ h3 !! r' = Some (CArr [2%positive])
                   /\ songs_at h3 r'
                      = songs_at one_song_store
                          (SongsService.songs sample_service).
Proof.
  split; [reflexivity|].
  apply (findAll_copy_out sample_service one_song_store [2%positive]).
  reflexivity.
Defined.

Lemma get_songs_before_and_after_post_run :
  stored (SongsController.songsService sample_controller) empty_store
  = Some []
  /\ (exists r0 h0,
         dispatch sample_controller (mkRequest GET ["songs"] "") empty_store
         = Normal (SongList r0) h0
         /\ songs_at h0 r0 = Some [])
  /\ (exists r1 h1 r2 h2,
         dispatch sample_controller
           (mkRequest POST ["songs"] "{ title: 1 }") empty_store
         = Normal (SongList r1) h1
         /\ SongsController.addASong sample_controller empty_store
            = Normal r1 h1
         /\ songs_at h1 r1 = Some [ulazi]
         /\ dispatch sample_controller (mkRequest GET ["songs"] "") h1
            = Normal (SongList r2) h2
         /\ songs_at h2 r2 = Some [ulazi]).
Proof.
  split; [reflexivity|].
  apply (get_songs_before_and_after_post sample_controller empty_store
           "" "{ title: 1 }" "").
  reflexivity.
Defined.

Lemma stub_handlers_return_literals_run :
  "not-a-number" ≠ ""
  /\ dispatch sample_controller
       (mkRequest GET ["songs"; "not-a-number"] "") one_song_store
     = Normal (Text "Song Received!!") one_song_store
  /\ dispatch sample_controller
       (mkRequest PUT ["songs"; "not-a-number"] "") one_song_store
     = Normal (Text "Song updated succesfully!!") one_song_store
  /\ dispatch sample_controller
       (mkRequest DELETE ["songs"; "not-a-number"] "") one_song_store
     = Normal (Text "Song removed succesfully!!") one_song_store.
Proof.
  split; [discriminate|].
  apply (proj2 (proj2 (proj2
           (stub_handlers_return_literals sample_controller one_song_store)))
           "not-a-number" "").
  discriminate.
Defined.

Lemma only_create_changes_store_run :
  stored (SongsController.songsService sample_controller) one_song_store
  = Some [2%positive]
  /\ creates HandlerFindAll = false
  /\ exists resp h',
       call sample_controller HandlerFindAll one_song_store = Normal resp h'
       /\ stored (SongsController.songsService sample_controller) h'
          = Some [2%positive].
Proof.
  split; [reflexivity|]. split; [reflexivity|].
  apply (proj2 (proj2 (only_create_changes_store sample_controller))
           HandlerFindAll one_song_store [2%positive]); reflexivity.
Defined.

Lemma store_is_append_only_run :
  stored (SongsController.songsService sample_controller) one_song_store
  = Some [2%positive]
  /\ (forall c,
         exists resp h' ys,
           call sample_controller c one_song_store = Normal resp h'
           /\ stored (SongsController.songsService sample_controller) h'
              = Some ys
           /\ [2%positive] `prefix_of` ys
           /\ forall l o, deref_song one_song_store l = Some o ->
                          deref_song h' l = Some o)
  /\ (forall req,
         exists resp h' ys,
           dispatch sample_controller req one_song_store = Normal resp h'
           /\ stored (SongsController.songsService sample_controller) h'
              = Some ys
           /\ [2%positive] `prefix_of` ys
           /\ forall l o, deref_song one_song_store l = Some o ->
                          deref_song h' l = Some o).
Proof.
  split; [reflexivity|].
  apply (store_is_append_only sample_controller one_song_store [2%positive]).
  reflexivity.
Defined.

(** ** How the service's results relate to each other *)

(** X1. Two [findAll()] calls hand out two different arrays: updating the
    first in place, in any way, leaves the elements of the second. *)
Theorem findAll_results_do_not_alias this (h : Heap) xs :
  stored this h = Some xs ->
  exists r1 h1 r2 h2,
    SongsService.findAll this h = Normal r1 h1
    /\ SongsService.findAll this h1 = Normal r2 h2
    /\ r1 ≠ r2
    /\ forall f : list loc -> list loc,
         exists h3,
           array_update r1 f h2 = Normal tt h3
           /\ h3 !! r1 = Some (CArr (f xs))
           /\ h3 !! r2 = Some (CArr xs).
Proof.
  intros E.
  set (r1 := fresh (dom h)). set (h1 := <[r1 := CArr xs]> h).
  set (r2 := fresh (dom h1)). set (h2 := <[r2 := CArr xs]> h1).
  assert (stored this h1 = Some xs) as E1.
  { unfold h1. rewrite stored_insert_ne; [done|]. by eapply fresh_not_stored. }
  assert (r1 ≠ r2) as Hne.
  { intros Heq. pose proof (fresh_unused h1) as U. fold r2 in U.
    rewrite <- Heq in U. unfold h1 in U. by rewrite lookup_insert_eq in U. }
  assert (h2 !! r1 = Some (CArr xs)) as L1.
  { unfold h2. rewrite lookup_insert_ne by done. apply lookup_insert_eq. }
  exists r1, h1, r2, h2.
  split; [by apply findAll_eq|]. split; [by apply findAll_eq|].
  split; [done|]. intros f. eexists. split.
  { unfold array_update. by rewrite L1. }
  split; [apply lookup_insert_eq|].
  rewrite lookup_insert_ne by done. apply lookup_insert_eq.
Qed.

(** X2. What [findAll()] returned is a snapshot: the [create] calls that come
    after it, however many, extend the stored collection and leave the
    array that was returned with the elements it had. *)
Theorem findAll_snapshot_survives_create this (h : Heap) xs ss :
  stored this h = Some xs ->
  exists r h1 h2,
    SongsService.findAll this h = Normal r h1
    /\ create_each this ss h1 = Normal tt h2
    /\ stored this h2 = Some (xs ++ ss)
    /\ h2 !! r = Some (CArr xs).
Proof.
  intros E.
  set (r := fresh (dom h)). set (h1 := <[r := CArr xs]> h).
  assert (r ≠ SongsService.songs this) as Hne by by eapply fresh_not_stored.
  assert (stored this h1 = Some xs) as E1.
  { unfold h1. by rewrite stored_insert_ne. }
  exists r, h1, (<[SongsService.songs this := CArr (xs ++ ss)]> h1).
  split; [by apply findAll_eq|]. split; [by apply create_each_eq|].
  split; [apply stored_insert_eq|].
  rewrite lookup_insert_ne by done. apply lookup_insert_eq.
Qed.

(** X3. What [create] returned is not a snapshot: every call returns the same
    reference, so the array the first call returned holds, once a second
    call has returned, the second song as well. *)
Theorem create_results_alias this (h : Heap) xs s1 s2 :
  stored this h = Some xs ->
  exists r1 h1 r2 h2,
    SongsService.create this s1 h = Normal r1 h1
    /\ SongsService.create this s2 h1 = Normal r2 h2
    /\ r1 = r2
    /\ h1 !! r1 = Some (CArr (xs ++ [s1]))
    /\ h2 !! r1 = Some (CArr (xs ++ [s1; s2])).
Proof.
  intros E.
  set (a := SongsService.songs this).
  set (h1 := <[a := CArr (xs ++ [s1])]> h).
  exists a, h1, a, (<[a := CArr ((xs ++ [s1]) ++ [s2])]> h1).
  split; [by apply create_eq|].
  split; [apply create_eq, stored_insert_eq|].
  split; [done|]. split; [apply lookup_insert_eq|].
  rewrite lookup_insert_eq. by rewrite <- app_assoc.
Qed.

(** A record update reads through every reference to the record. *)
Lemma deref_song_update (h : Heap) l o x :
  deref_song (<[l := CObj o]> h) x
  = if decide (x = l) then Some o else deref_song h x.
Proof.
  unfold deref_song. destruct (decide (x = l)) as [->|Hne].
  - by rewrite lookup_insert_eq.
  - by rewrite lookup_insert_ne.
Qed.

Lemma Forall2_deref_update (d d' : loc -> option Song) l v xs rs :
  (forall x, d' x = if decide (x = l) then Some v else d x) ->
  Forall2 (fun x y => d x = Some y) xs rs ->
  Forall2 (fun x y => d' x = Some y) xs
    (zip_with (fun x y => if decide (x = l) then v else y) xs rs).
Proof.
  intros D S. induction S as [|x y xs rs Hx _ IH]; simpl; constructor.
  - rewrite D. by destruct (decide (x = l)).
  - exact IH.
Qed.

(** X4. The copy [findAll()] makes is shallow.  The array it returns holds the
    very references the service holds, so when a caller updates a record
    it reached through that array, the next [findAll()] shows the updated
    record at every position that refers to it, and the other records as
    they were. *)
Theorem findAll_copy_is_shallow this (h : Heap) xs rs i l o f :
  stored this h = Some xs ->
  songs_at h (SongsService.songs this) = Some rs ->
  xs !! i = Some l ->
  deref_song h l = Some o ->
  exists r h1 h2 r' h3 rs',
    SongsService.findAll this h = Normal r h1
    /\ h1 !! r = Some (CArr xs)
    /\ song_update l f h1 = Normal tt h2
    /\ stored this h2 = Some xs
    /\ SongsService.findAll this h2 = Normal r' h3
    /\ songs_at h3 r' = Some rs'
    /\ rs' !! i = Some (f o)
    /\ forall j l', xs !! j = Some l' -> l' ≠ l -> rs' !! j = rs !! j.
Proof.
  intros E S Hi Ho.
  pose proof (proj1 (stored_lookup _ _ _) E) as La.
  rewrite (songs_at_array _ _ _ La) in S. apply mapM_Some in S.
  set (a := SongsService.songs this) in *.
  set (r := fresh (dom h)). set (h1 := <[r := CArr xs]> h).
  assert (h !! r = None) as Ur by apply fresh_unused.
  assert (r ≠ a) as Hra by by eapply fresh_not_stored.
  assert (r ≠ l) as Hrl.
  { intros <-. unfold deref_song in Ho. by rewrite Ur in Ho. }
  assert (l ≠ a) as Hla.
  { intros ->. unfold deref_song in Ho. by rewrite La in Ho. }
  assert (h1 !! l = Some (CObj o)) as Ll.
  { unfold h1. rewrite lookup_insert_ne by done. unfold deref_song in Ho.
    by destruct (h !! l) as [[?|?]|]; simplify_eq. }
  set (h2 := <[l := CObj (f o)]> h1).
  assert (stored this h2 = Some xs) as E2.
  { unfold h2, h1. by rewrite !stored_insert_ne. }
  set (r' := fresh (dom h2)). set (h3 := <[r' := CArr xs]> h2).
  assert (forall x, deref_song h3 x
                    = if decide (x = l) then Some (f o) else deref_song h x)
    as D.
  { intros x. unfold h3.
    rewrite deref_song_insert_array by apply deref_song_unused, fresh_unused.
    unfold h2. rewrite deref_song_update. destruct (decide (x = l)); [done|].
    unfold h1. by apply deref_song_insert_array, deref_song_unused. }
  set (rs' := zip_with (fun x y => if decide (x = l) then f o else y) xs rs).
  assert (Forall2 (fun x y => deref_song h3 x = Some y) xs rs') as F2.
  { by apply (Forall2_deref_update (deref_song h)). }
  exists r, h1, h2, r', h3, rs'.
  split; [by apply findAll_eq|]. split; [apply lookup_insert_eq|].
  split. { unfold song_update. by rewrite Ll. }
  split; [done|]. split; [by apply findAll_eq|].
  assert (h3 !! r' = Some (CArr xs)) as L3 by apply lookup_insert_eq.
  split. { rewrite (songs_at_array _ _ _ L3). by apply mapM_Some. }
  pose proof (Forall2_length _ _ _ S) as Len.
  split.
  - destruct (lookup_lt_is_Some_2 rs i) as [y Hy].
    { rewrite <- Len. by eapply lookup_lt_Some. }
    unfold rs'. rewrite lookup_zip_with, Hi, Hy. simpl.
    by rewrite decide_True.
  - intros j l' Hj Hne. unfold rs'. rewrite lookup_zip_with, Hj. simpl.
    destruct (rs !! j) as [y|]; simpl; [|done]. by rewrite decide_False.
Qed.

(** ** The route surface *)








(** ** Serving requests one after the other *)






(** ** Concrete runs of the further properties *)

Lemma findAll_results_do_not_alias_run :
  stored sample_service one_song_store = Some [2%positive]
  /\ exists r1 h1 r2 h2,
       SongsService.findAll sample_service one_song_store = Normal r1 h1
       /\ SongsService.findAll sample_service h1 = Normal r2 h2
       /\ r1 ≠ r2
       /\ forall f : list loc -> list loc,
            exists h3,
              array_update r1 f h2 = Normal tt h3
              /\ h3 !! r1 = Some (CArr (f [2%positive]))
              /\ h3 !! r2 = Some (CArr [2%positive]).
Proof.
  split; [reflexivity|].
  apply (findAll_results_do_not_alias sample_service one_song_store
           [2%positive]).
  reflexivity.
Defined.

Lemma findAll_snapshot_survives_create_run :
  stored sample_service odd_song_store = Some [2%positive]
  /\ exists r h1 h2,
       SongsService.findAll sample_service odd_song_store = Normal r h1
       /\ create_each sample_service [3%positive; 3%positive] h1
          = Normal tt h2
       /\ stored sample_service h2
          = Some ([2%positive] ++ [3%positive; 3%positive])
       /\ h2 !! r = Some (CArr [2%positive]).
Proof.
  split; [reflexivity|].
  apply (findAll_snapshot_survives_create sample_service odd_song_store
           [2%positive] [3%positive; 3%positive]).
  reflexivity.
Defined.

Lemma create_results_alias_run :
  stored sample_service odd_song_store = Some [2%positive]
  /\ exists r1 h1 r2 h2,
       SongsService.create sample_service 3%positive odd_song_store
       = Normal r1 h1
       /\ SongsService.create sample_service 2%positive h1 = Normal r2 h2
       /\ r1 = r2
       /\ h1 !! r1 = Some (CArr ([2%positive] ++ [3%positive]))
       /\ h2 !! r1
          = Some (CArr ([2%positive] ++ [3%positive; 2%positive])).
Proof.
  split; [reflexivity|].
  apply (create_results_alias sample_service odd_song_store
           [2%positive] 3%positive 2%positive).
  reflexivity.
Defined.

Lemma findAll_copy_is_shallow_run :
  stored sample_service odd_song_store = Some [2%positive]
  /\ songs_at odd_song_store (SongsService.songs sample_service)
     = Some [ulazi]
  /\ [2%positive] !! 0 = Some 2%positive
  /\ deref_song odd_song_store 2%positive = Some ulazi
  /\ exists r h1 h2 r' h3 rs',
       SongsService.findAll sample_service odd_song_store = Normal r h1
       /\ h1 !! r = Some (CArr [2%positive])
       /\ song_update 2%positive rename h1 = Normal tt h2
       /\ stored sample_service h2 = Some [2%positive]
       /\ SongsService.findAll sample_service h2 = Normal r' h3
       /\ songs_at h3 r' = Some rs'
       /\ rs' !! 0 = Some (rename ulazi)
       /\ forall j l',
            [2%positive] !! j = Some l' -> l' ≠ 2%positive ->
            rs' !! j = [ulazi] !! j.
Proof.
  do 4 (split; [reflexivity|]).
  apply (findAll_copy_is_shallow sample_service odd_song_store
           [2%positive] [ulazi] 0 2%positive ulazi rename); reflexivity.
Defined.



